(** * Book CRUD service: handlers, store and lock discipline

    A shallow embedding of the two lineages of the service:
    - [Gin]: src/main.go (gin router, [BookService] with a [sync.RWMutex]);
    - [Mux]: src/unnamed/part_000 (gorilla/mux router, package-level
      [storage] guarded by a [sync.Mutex]).

    A handler is a small program over the operations the Go code performs
    on its surroundings (request, response writer, mutex, map, logger).
    The programs are given two semantics: [exec], which runs one handler
    to completion, and [step], one atomic action of one goroutine, from
    which the interleavings of concurrent requests are built. *)

From Stdlib Require Import String.
From stdpp Require Import base option list gmap strings fin_maps.

Local Open Scope string_scope.

(** ** Data model *)

(** [type Book struct] *)
Record Book := mkBook { ID : string; Name : string; Author : string }.

(** The zero value of [Book], what [storage[k]] yields for an absent key. *)
Definition zeroBook : Book := mkBook "" "" "".

(** [map[string]Book] *)
Abbreviation Storage := (gmap string Book).

(** A Go slice is either [nil] or a (possibly empty) backing sequence. *)
Inductive slice (A : Type) : Type :=
| nil_slice
| Slice (l : list A).
Arguments nil_slice {A}.
Arguments Slice {A} l.

(** The builtin [append(s, x)]: appending to a nil slice allocates. *)
Definition append {A} (s : slice A) (x : A) : slice A :=
  match s with
  | nil_slice => Slice [x]
  | Slice l => Slice (l ++ [x])%list
  end.

Definition elems {A} (s : slice A) : list A :=
  match s with
  | nil_slice => []
  | Slice l => l
  end.

(** JSON documents, as produced by [encoding/json]. *)
#[local] Unset Elimination Schemes.
Inductive json : Type :=
| JNull
| JStr (s : string)
| JArr (items : list json)
| JObj (fields : list (string * json)).
#[local] Set Elimination Schemes.

(** Encoding of a [Book], following its field tags. *)
Definition marshal_Book (b : Book) : json :=
  JObj [("id", JStr (ID b)); ("name", JStr (Name b)); ("author", JStr (Author b))].

(** Encoding of a [[]Book]: a nil slice encodes as the JSON value [null],
    any other slice as an array. *)
Definition marshal_Books (s : slice Book) : json :=
  match s with
  | nil_slice => JNull
  | Slice l => JArr (marshal_Book <$> l)
  end.

(** [gin.H{k: v}] and [map[string]string{k: v}] with a single entry. *)
Definition H (k v : string) : json := JObj [(k, JStr v)].

(** Outcome of decoding the request body into a [Book]
    ([c.ShouldBindJSON(&b)], [json.NewDecoder(req.Body).Decode(&b)]). *)
Inductive bind_result : Type :=
| BindErr (err : string)
| BindOk (b : Book).

(** The five routes registered in [main]. *)
Inductive Request : Type :=
| GET_book
| GET_book_id (id : string)
| POST_book (body : bind_result)
| PUT_book_id (id : string) (body : bind_result)
| DELETE_book_id (id : string).

(** [c.Param("id")], [mux.Vars(req)["id"]]: empty when the route has none. *)
Definition req_id (r : Request) : string :=
  match r with
  | GET_book_id id | PUT_book_id id _ | DELETE_book_id id => id
  | GET_book | POST_book _ => ""
  end.

Definition req_body (r : Request) : bind_result :=
  match r with
  | POST_book b | PUT_book_id _ b => b
  | GET_book | GET_book_id _ | DELETE_book_id _ => BindErr "EOF"
  end.

Definition req_method (r : Request) : string :=
  match r with
  | GET_book | GET_book_id _ => "GET"
  | POST_book _ => "POST"
  | PUT_book_id _ _ => "PUT"
  | DELETE_book_id _ => "DELETE"
  end.

(** [c.FullPath()]: the route pattern. *)
Definition req_FullPath (r : Request) : string :=
  match r with
  | GET_book | POST_book _ => "/book"
  | GET_book_id _ | PUT_book_id _ _ | DELETE_book_id _ => "/book/:id"
  end.

(** [req.URL.Path]: the path as requested. *)
Definition req_URLPath (r : Request) : string :=
  match r with
  | GET_book | POST_book _ => "/book"
  | GET_book_id id | PUT_book_id id _ | DELETE_book_id id => "/book/" +:+ id
  end.

Inductive endpoint_kind := FullPath | URLPath.

Definition req_endpoint (e : endpoint_kind) (r : Request) : string :=
  match e with
  | FullPath => req_FullPath r
  | URLPath => req_URLPath r
  end.

(** ** Responses and diagnostics *)

Definition StatusOK : nat := 200.
Definition StatusBadRequest : nat := 400.
Definition StatusNotFound : nat := 404.

Inductive Body : Type :=
| BJSON (j : json)
| BText (s : string).

Record Response := mkResponse {
  code : nat;
  content_type : string;
  payload : Body
}.

(** One [logrus] entry: the fields set by [logError] and its message. *)
Record LogEntry := mkLogEntry {
  log_error : string;
  log_method : string;
  log_endpoint : string;
  log_message : string
}.

(** ** Handler programs *)

(** What a [defer] statement of the handlers can register. *)
Inductive deferred := DeferUnlock | DeferRUnlock.

(** The statements of a handler, each with what follows it:
    - [Param], [BindJSON]: the path parameter, the decoded request body;
    - [HeaderSet], [WriteResp]: the Content-Type header, the response sent;
    - [LogError]: the handlers' [logError];
    - [Lock], [Unlock], [RLock], [RUnlock], [Defer]: the mutex;
    - [MapGet], [MapSet], [MapDelete], [MapRange]: [v, ok := m[k]],
      [m[k] = v], [delete(m, k)] and [for k, v := range m]. *)
Inductive prog : Type :=
| Return
| Param (k : string -> prog)
| BindJSON (k : bind_result -> prog)
| HeaderSet (v : string) (k : prog)
| WriteResp (status : nat) (b : Body) (k : prog)
| LogError (err : string) (e : endpoint_kind) (message : string) (k : prog)
| Lock (k : prog)
| Unlock (k : prog)
| RLock (k : prog)
| RUnlock (k : prog)
| Defer (d : deferred) (k : prog)
| MapGet (key : string) (k : Book -> bool -> prog)
| MapSet (key : string) (b : Book) (k : prog)
| MapDelete (key : string) (k : prog)
| MapRange (k : list (string * Book) -> prog).

(** [c.JSON(code, obj)] *)
Definition c_JSON (status : nat) (obj : json) (k : prog) : prog :=
  HeaderSet "application/json; charset=utf-8" (WriteResp status (BJSON obj) k).

Definition newline : string := String (Ascii.ascii_of_nat 10) EmptyString.

(** [http.Error(w, msg, code)]: a plain-text body, the message and a newline. *)
Definition http_Error (msg : string) (status : nat) (k : prog) : prog :=
  HeaderSet "text/plain; charset=utf-8"
    (WriteResp status (BText (msg +:+ newline)) k).

(** [json.NewEncoder(w).Encode(v)]: the first write sends status 200. The
    newline the encoder adds after the document is not part of [json]; the
    handlers' error branch is reached only when the write itself fails. *)
Definition Encode (v : json) (k : prog) : prog :=
  WriteResp StatusOK (BJSON v) k.

(** The body of [for _, book := range storage { books = append(books, book) }]
    started from [var books []Book]. *)
Definition collect (entries : list (string * Book)) : slice Book :=
  fold_left (fun books e => append books e.2) entries nil_slice.

(** ** src/main.go *)
Module Gin.

(** [func NoExist(exist bool, c *gin.Context) bool] *)
Definition NoExist (exist : bool) (k : bool -> prog) : prog :=
  if negb exist
  then c_JSON StatusNotFound (H "error" "Record not found") (k true)
  else k false.

Definition returnAllBooks : prog :=
  RLock (Defer DeferRUnlock
    (MapRange (fun entries =>
       let books := collect entries in
       c_JSON StatusOK (marshal_Books books) Return))).

Definition returnBooksByID : prog :=
  Param (fun bookID =>
    RLock (MapGet bookID (fun book exist =>
      RUnlock
        (NoExist exist (fun stop =>
           if stop then Return
           else c_JSON StatusOK (marshal_Book book) Return))))).

Definition createBook : prog :=
  BindJSON (fun bound =>
    match bound with
    | BindErr err =>
        c_JSON StatusBadRequest (H "error" "Invalid JSON format")
          (LogError err FullPath "Error when decoding JSON" Return)
    | BindOk newBook =>
        MapGet (ID newBook) (fun _ exists_ =>
          if exists_
          then c_JSON StatusNotFound (H "error" "Record already exists") Return
          else
            Lock (MapSet (ID newBook) newBook
              (Unlock
                (c_JSON StatusOK (marshal_Book newBook) Return))))
    end).

Definition updateBook : prog :=
  Param (fun bookID =>
    BindJSON (fun bound =>
      match bound with
      | BindErr err =>
          c_JSON StatusBadRequest (H "error" "Invalid JSON format")
            (LogError err FullPath "Error when decoding JSON" Return)
      | BindOk updatedBook =>
          Lock (Defer DeferUnlock
            (MapGet bookID (fun _ exist =>
               NoExist exist (fun stop =>
                 if stop then Return
                 else
                   MapSet bookID updatedBook
                     (c_JSON StatusOK (marshal_Book updatedBook) Return)))))
      end)).

Definition deleteBook : prog :=
  Param (fun bookID =>
    Lock (Defer DeferUnlock
      (MapGet bookID (fun _ exist =>
         NoExist exist (fun stop =>
           if stop then Return
           else
             MapDelete bookID
               (c_JSON StatusOK (H "message" "Book deleted successfully")
                  Return)))))).

(** The routing table of [main]. *)
Definition router (r : Request) : prog :=
  match r with
  | GET_book => returnAllBooks
  | GET_book_id _ => returnBooksByID
  | POST_book _ => createBook
  | PUT_book_id _ _ => updateBook
  | DELETE_book_id _ => deleteBook
  end.

End Gin.

(** ** src/unnamed/part_000 *)
Module Mux.

Definition returnAllBooks : prog :=
  HeaderSet "application/json"
    (Lock (Defer DeferUnlock
      (MapRange (fun entries =>
         let books := collect entries in
         Encode (marshal_Books books) Return)))).

Definition returnBooksByID : prog :=
  HeaderSet "application/json"
    (Param (fun bookID =>
      Lock (MapGet bookID (fun book exist =>
        Unlock
          (if negb exist
           then http_Error "Record not found" StatusNotFound Return
           else Encode (marshal_Book book) Return))))).

Definition createBook : prog :=
  HeaderSet "application/json"
    (BindJSON (fun bound =>
      match bound with
      | BindErr err =>
          http_Error "Invalid JSON format" StatusBadRequest
            (LogError err URLPath "Error when decoding JSON" Return)
      | BindOk newBook =>
          MapGet (ID newBook) (fun _ exists_ =>
            if exists_
            then http_Error "Record already exists" StatusBadRequest Return
            else
              Lock (MapSet (ID newBook) newBook
                (Unlock (Encode (marshal_Book newBook) Return))))
      end)).

Definition updateBook : prog :=
  HeaderSet "application/json"
    (Param (fun bookID =>
      BindJSON (fun bound =>
        match bound with
        | BindErr err =>
            http_Error "Invalid JSON format" StatusBadRequest
              (LogError err URLPath "Error when decoding JSON" Return)
        | BindOk updatedBook =>
            Lock (Defer DeferUnlock
              (MapGet bookID (fun _ exist =>
                 if negb exist
                 then http_Error "Record not found" StatusNotFound Return
                 else
                   MapSet bookID updatedBook
                     (Encode (marshal_Book updatedBook) Return))))
        end))).

Definition deleteBook : prog :=
  HeaderSet "application/json"
    (Param (fun bookID =>
      Lock (Defer DeferUnlock
        (MapGet bookID (fun _ exist =>
           if negb exist
           then http_Error "Record not found" StatusNotFound Return
           else
             MapDelete bookID
               (Encode (H "message" "Book deleted successfully") Return)))))).

(** The routing table of [main]. *)
Definition router (r : Request) : prog :=
  match r with
  | GET_book => returnAllBooks
  | GET_book_id _ => returnBooksByID
  | POST_book _ => createBook
  | PUT_book_id _ _ => updateBook
  | DELETE_book_id _ => deleteBook
  end.

End Mux.

Inductive Variant := GinRW | MuxMutex.

Definition handler (v : Variant) (r : Request) : prog :=
  match v with
  | GinRW => Gin.router r
  | MuxMutex => Mux.router r
  end.

(** ** Shared state and goroutine-local state *)

(** [sync.RWMutex]; the [sync.Mutex] of part_000 only uses the writer side. *)
Record RWMutex := mkMu { w_locked : bool; readers : nat }.

Definition unlocked : RWMutex := mkMu false 0.

Definition try_Lock (m : RWMutex) : option RWMutex :=
  if negb (w_locked m) && Nat.eqb (readers m) 0 then Some (mkMu true 0) else None.

(** Unlocking a mutex that is not locked is a fatal runtime error. *)
Definition try_Unlock (m : RWMutex) : option RWMutex :=
  if w_locked m then Some (mkMu false (readers m)) else None.

Definition try_RLock (m : RWMutex) : option RWMutex :=
  if negb (w_locked m) then Some (mkMu false (S (readers m))) else None.

Definition try_RUnlock (m : RWMutex) : option RWMutex :=
  match readers m with
  | O => None
  | S n => Some (mkMu (w_locked m) n)
  end.

(** What every goroutine shares: the map, its mutex and the log sink. *)
Record World := mkWorld {
  storage : gmap string Book;
  mu : RWMutex;
  logs : list LogEntry
}.

Definition set_storage (f : gmap string Book -> gmap string Book) (w : World) : World :=
  mkWorld (f (storage w)) (mu w) (logs w).

Definition set_mu (m : RWMutex) (w : World) : World :=
  mkWorld (storage w) m (logs w).

Definition add_log (e : LogEntry) (w : World) : World :=
  mkWorld (storage w) (mu w) (logs w ++ [e])%list.

(** What a goroutine does, as seen from outside. *)
Inductive Event : Type :=
| EvReadBody
| EvWriteResp
| EvLock
| EvUnlock
| EvRLock
| EvRUnlock
| EvMapGet (key : string)
| EvMapSet (key : string)
| EvMapDelete (key : string)
| EvMapRange.

(** One request being served: the request, the pending deferred calls
    (most recent first), the Content-Type header, what was written to the
    client, and the history of its actions. *)
Record Local := mkLocal {
  req : Request;
  defers : list deferred;
  header : string;
  written : list Response;
  trace : list Event
}.

Definition emit (e : Event) (l : Local) : Local :=
  mkLocal (req l) (defers l) (header l) (written l) (trace l ++ [e])%list.

Definition set_defers (ds : list deferred) (l : Local) : Local :=
  mkLocal (req l) ds (header l) (written l) (trace l).

Definition set_header (v : string) (l : Local) : Local :=
  mkLocal (req l) (defers l) v (written l) (trace l).

Definition write_resp (status : nat) (b : Body) (l : Local) : Local :=
  emit EvWriteResp
    (mkLocal (req l) (defers l) (header l)
       (written l ++ [mkResponse status (header l) b])%list (trace l)).

Definition log_entry (err : string) (e : endpoint_kind) (message : string)
    (l : Local) : LogEntry :=
  mkLogEntry err (req_method (req l)) (req_endpoint e (req l)) message.

Definition with_mu (f : RWMutex -> option RWMutex) (w : World) : option World :=
  m ← f (mu w); Some (set_mu m w).

Definition run_deferred (d : deferred) (w : World) : option World :=
  match d with
  | DeferUnlock => with_mu try_Unlock w
  | DeferRUnlock => with_mu try_RUnlock w
  end.

Definition deferred_event (d : deferred) : Event :=
  match d with
  | DeferUnlock => EvUnlock
  | DeferRUnlock => EvRUnlock
  end.

(** [v, ok := m[key]] *)
Definition map_get (m : gmap string Book) (key : string) : Book * bool :=
  match m !! key with
  | Some b => (b, true)
  | None => (zeroBook, false)
  end.

Definition init_world (m : gmap string Book) : World := mkWorld m unlocked [].
Definition init_local (r : Request) : Local := mkLocal r [] "" [] [].

Section Semantics.

(** The order in which [range] visits a map is not specified: any
    enumeration of its entries. *)
Variable range_order : gmap string Book -> list (string * Book).

(** *** One atomic action of a goroutine

    [None] when the goroutine has returned, or cannot move (it waits for
    the mutex). *)
Definition step (w : World) (l : Local) (p : prog) : option (World * Local * prog) :=
  match p with
  | Return =>
      match defers l with
      | [] => None
      | d :: ds =>
          w' ← run_deferred d w;
          Some (w', emit (deferred_event d) (set_defers ds l), Return)
      end
  | Param k => Some (w, l, k (req_id (req l)))
  | BindJSON k => Some (w, emit EvReadBody l, k (req_body (req l)))
  | HeaderSet v k => Some (w, set_header v l, k)
  | WriteResp status b k => Some (w, write_resp status b l, k)
  | LogError err e message k => Some (add_log (log_entry err e message l) w, l, k)
  | Lock k => w' ← with_mu try_Lock w; Some (w', emit EvLock l, k)
  | Unlock k => w' ← with_mu try_Unlock w; Some (w', emit EvUnlock l, k)
  | RLock k => w' ← with_mu try_RLock w; Some (w', emit EvRLock l, k)
  | RUnlock k => w' ← with_mu try_RUnlock w; Some (w', emit EvRUnlock l, k)
  | Defer d k => Some (w, set_defers (d :: defers l) l, k)
  | MapGet key k =>
      let '(b, ok) := map_get (storage w) key in
      Some (w, emit (EvMapGet key) l, k b ok)
  | MapSet key b k => Some (set_storage <[key:=b]> w, emit (EvMapSet key) l, k)
  | MapDelete key k => Some (set_storage (delete key) w, emit (EvMapDelete key) l, k)
  | MapRange k => Some (w, emit EvMapRange l, k (range_order (storage w)))
  end.

(** A configuration of one goroutine, and its moves. *)
Definition moves (c c' : World * Local * prog) : Prop :=
  step c.1.1 c.1.2 c.2 = Some c'.

(** *** One handler run to completion, with nothing else running *)

(** At [return], the deferred calls run, most recent first. *)
Fixpoint unwind (ds : list deferred) (w : World) (l : Local) : option (World * Local) :=
  match ds with
  | [] => Some (w, set_defers [] l)
  | d :: ds' =>
      w' ← run_deferred d w;
      unwind ds' w' (emit (deferred_event d) (set_defers ds' l))
  end.

Fixpoint exec (p : prog) (w : World) (l : Local) : option (World * Local) :=
  match p with
  | Return => unwind (defers l) w l
  | Param k => exec (k (req_id (req l))) w l
  | BindJSON k => exec (k (req_body (req l))) w (emit EvReadBody l)
  | HeaderSet v k => exec k w (set_header v l)
  | WriteResp status b k => exec k w (write_resp status b l)
  | LogError err e message k => exec k (add_log (log_entry err e message l) w) l
  | Lock k => w' ← with_mu try_Lock w; exec k w' (emit EvLock l)
  | Unlock k => w' ← with_mu try_Unlock w; exec k w' (emit EvUnlock l)
  | RLock k => w' ← with_mu try_RLock w; exec k w' (emit EvRLock l)
  | RUnlock k => w' ← with_mu try_RUnlock w; exec k w' (emit EvRUnlock l)
  | Defer d k => exec k w (set_defers (d :: defers l) l)
  | MapGet key k =>
      let '(b, ok) := map_get (storage w) key in
      exec (k b ok) w (emit (EvMapGet key) l)
  | MapSet key b k => exec k (set_storage <[key:=b]> w) (emit (EvMapSet key) l)
  | MapDelete key k => exec k (set_storage (delete key) w) (emit (EvMapDelete key) l)
  | MapRange k => exec (k (range_order (storage w))) w (emit EvMapRange l)
  end.

(** Serving request [r] on a quiescent store holding [m]. *)
Definition serve (v : Variant) (r : Request) (m : gmap string Book)
    : option (World * Local) :=
  exec (handler v r) (init_world m) (init_local r).

(** *** Concurrent requests *)

Record System := mkSystem {
  world : World;
  threads : list (Local * prog)
}.

(** Goroutine [i] performs its next action. *)
Definition sched (i : nat) (s : System) : option System :=
  '(l, p) ← threads s !! i;
  '(w', l', p') ← step (world s) l p;
  Some (mkSystem w' (<[i := (l', p')]> (threads s))).

Fixpoint run_schedule (sch : list nat) (s : System) : option System :=
  match sch with
  | [] => Some s
  | i :: sch' => s' ← sched i s; run_schedule sch' s'
  end.

Definition spawn (v : Variant) (r : Request) : Local * prog :=
  (init_local r, handler v r).

Definition start (v : Variant) (m : gmap string Book) (rs : list Request) : System :=
  mkSystem (init_world m) (spawn v <$> rs).

End Semantics.

(** ** Observing a run *)

(** What a finished run leaves behind: the map, and what the client got. *)
Definition outcome (o : option (World * Local))
    : option (gmap string Book * list Response) :=
  (fun x => (storage x.1, written x.2)) <$> o.

(** The actions of a finished run, in order. *)
Definition history (o : option (World * Local)) : option (list Event) :=
  (fun x => trace x.2) <$> o.

(** Requests served one after the other, each on the map left by the
    previous one. *)
Fixpoint serve_seq (order : gmap string Book -> list (string * Book))
    (v : Variant) (rs : list Request) (m : gmap string Book)
    : option (gmap string Book) :=
  match rs with
  | [] => Some m
  | r :: rs' => x ← serve order v r m; serve_seq order v rs' (storage x.1)
  end.

(** The wire form of a success: [c.JSON(200, obj)] in main.go, the
    encoder's output under the handler's Content-Type in part_000. *)
Definition ok_response (v : Variant) (obj : json) : Response :=
  match v with
  | GinRW => mkResponse StatusOK "application/json; charset=utf-8" (BJSON obj)
  | MuxMutex => mkResponse StatusOK "application/json" (BJSON obj)
  end.

(** The wire form of a failure: an [{"error": msg}] object in main.go, the
    plain text of [http.Error] in part_000. *)
Definition error_response (v : Variant) (status : nat) (msg : string) : Response :=
  match v with
  | GinRW =>
      mkResponse status "application/json; charset=utf-8" (BJSON (H "error" msg))
  | MuxMutex =>
      mkResponse status "text/plain; charset=utf-8" (BText (msg +:+ newline))
  end.

(** ** Store predicates *)

(** No two live records carry the same [id] field. *)
Definition ids_unique (m : gmap string Book) : Prop :=
  forall k1 k2 b1 b2,
    m !! k1 = Some b1 -> m !! k2 = Some b2 -> ID b1 = ID b2 -> k1 = k2.

(** Every live record sits at the key equal to its [id] field. *)
Definition keyed_by_id (m : gmap string Book) : Prop :=
  forall k b, m !! k = Some b -> ID b = k.

(** An update whose payload names the record it replaces. *)
Definition id_preserving (r : Request) : Prop :=
  match r with
  | PUT_book_id id (BindOk b) => ID b = id
  | _ => True
  end.

(** The key a mutating request works on. *)
Definition target (r : Request) : option string :=
  match r with
  | POST_book (BindOk b) => Some (ID b)
  | PUT_book_id id _ => Some id
  | DELETE_book_id id => Some id
  | _ => None
  end.

(** ** Lock discipline, read off a goroutine's history *)

Inductive hold := Free | Shared | Exclusive.

Definition hold_after (h : hold) (e : Event) : hold :=
  match e with
  | EvLock => Exclusive
  | EvRLock => Shared
  | EvUnlock | EvRUnlock => Free
  | _ => h
  end.

(** Every action is allowed by [P] under the lock held when it happens. *)
Fixpoint guarded (P : hold -> Event -> bool) (h : hold) (tr : list Event) : bool :=
  match tr with
  | [] => true
  | e :: tr' => P h e && guarded P (hold_after h e) tr'
  end.

Definition is_free (h : hold) : bool :=
  match h with Free => true | _ => false end.

Definition is_exclusive (h : hold) : bool :=
  match h with Exclusive => true | _ => false end.

Definition is_map_access (e : Event) : bool :=
  match e with
  | EvMapGet _ | EvMapSet _ | EvMapDelete _ | EvMapRange => true
  | _ => false
  end.

Definition is_acquire (e : Event) : bool :=
  match e with
  | EvLock | EvRLock => true
  | _ => false
  end.

(** The body is read from, and the response written to, the network only
    while no lock is held. *)
Definition no_io_under_lock (tr : list Event) : bool :=
  guarded (fun h e =>
    match e with
    | EvReadBody | EvWriteResp => is_free h
    | _ => true
    end) Free tr.

Definition body_read_unlocked (tr : list Event) : bool :=
  guarded (fun h e =>
    match e with
    | EvReadBody => is_free h
    | _ => true
    end) Free tr.

Definition response_written_unlocked (tr : list Event) : bool :=
  guarded (fun h e =>
    match e with
    | EvWriteResp => is_free h
    | _ => true
    end) Free tr.

(** Every access to the map happens under the exclusive lock, and the lock
    is taken at most once: the check and the act share one acquisition. *)
Definition check_act_atomic (tr : list Event) : bool :=
  guarded (fun h e => if is_map_access e then is_exclusive h else true) Free tr
  && (length (filter (fun e => is_acquire e = true) tr) <=? 1)%nat.

(** An interleaving of two [createBook] goroutines (0 and 1): each decodes
    its body and looks its id up, and only then does each, in turn, take
    the lock, insert, release and answer. *)
Definition race_schedule (v : Variant) : list nat :=
  match v with
  | GinRW => [0; 0; 1; 1; 0; 0; 0; 0; 0; 1; 1; 1; 1; 1]
  | MuxMutex => [0; 0; 0; 1; 1; 1; 0; 0; 0; 0; 1; 1; 1; 1]
  end.



(** ** Sample Records *)

Definition book_1 : Book := mkBook "1" "A" "B".
Definition book_1_again : Book := mkBook "1" "X" "Y".
Definition book_2 : Book := mkBook "2" "C" "D".
Definition book_2_sent_to_1 : Book := mkBook "2" "E" "F".

(** ** Further observations *)


(** The lock a lineage takes around a read of the map: the read side of
    the [RWMutex] in main.go, the only side of the [Mutex] in part_000. *)
Definition read_mode (v : Variant) : hold :=
  match v with
  | GinRW => Shared
  | MuxMutex => Exclusive
  end.

Definition hold_eqb (a b : hold) : bool :=
  match a, b with
  | Free, Free | Shared, Shared | Exclusive, Exclusive => true
  | _, _ => false
  end.

(** Every access to the map happens under the lock held in [mode]. *)
Definition map_access_under (mode : hold) (tr : list Event) : bool :=
  guarded (fun h e => if is_map_access e then hold_eqb h mode else true) Free tr.

(** ** Lock discipline of a running system *)

(** The lock a goroutine holds, given what it has done so far. *)
Definition final_hold (tr : list Event) : hold := fold_left hold_after tr Free.

Definition holding (t : Local * prog) : hold := final_hold (trace t.1).

(** What is left of a handler respects the mutex, for a goroutine holding
    [h] with deferred calls [ds]: it acquires only when it holds nothing,
    releases only what it holds, assigns to and deletes from the map only
    under the exclusive lock, and returns with exactly the deferred call
    that releases what it still holds. *)
Fixpoint disciplined (h : hold) (ds : list deferred) (p : prog) : Prop :=
  match p with
  | Return =>
      match h, ds with
      | Free, [] | Exclusive, [DeferUnlock] | Shared, [DeferRUnlock] => True
      | _, _ => False
      end
  | Param k => forall id, disciplined h ds (k id)
  | BindJSON k => forall bound, disciplined h ds (k bound)
  | HeaderSet _ k | WriteResp _ _ k | LogError _ _ _ k => disciplined h ds k
  | Lock k => h = Free /\ disciplined Exclusive ds k
  | RLock k => h = Free /\ disciplined Shared ds k
  | Unlock k => h = Exclusive /\ ds = [] /\ disciplined Free ds k
  | RUnlock k => h = Shared /\ ds = [] /\ disciplined Free ds k
  | Defer d k => disciplined h (d :: ds) k
  | MapGet _ k => forall b ok, disciplined h ds (k b ok)
  | MapSet _ _ k | MapDelete _ k => h = Exclusive /\ disciplined h ds k
  | MapRange k => forall entries, disciplined h ds (k entries)
  end.

(** How many goroutines hold the lock in mode [h]. *)
Definition holders (h : hold) (ts : list (Local * prog)) : nat :=
  length (filter (fun t => hold_eqb (holding t) h = true) ts).

(** The mutex agrees with what the goroutines hold, and every goroutine
    goes on respecting it. *)
Definition lock_consistent (s : System) : Prop :=
  Forall (fun t => disciplined (holding t) (defers t.1) t.2) (threads s)
  /\ holders Exclusive (threads s) = (if w_locked (mu (world s)) then 1 else 0)
  /\ holders Shared (threads s) = readers (mu (world s))
  /\ (w_locked (mu (world s)) = true -> readers (mu (world s)) = 0).


(** The goroutine is about to assign to the map or delete from it. *)
Definition about_to_write (t : Local * prog) : Prop :=
  match t.2 with
  | MapSet _ _ _ | MapDelete _ _ => True
  | _ => False
  end.




(** ** Agreement of the two semantics *)

Section Agreement.

Context (order : gmap string Book -> list (string * Book)).

Lemma unwind_moves ds : forall w l w' l',
  defers l = ds ->
  unwind ds w l = Some (w', l') ->
  rtc (moves order) (w, l, Return) (w', l', Return) /\ defers l' = [].
Proof.
  induction ds as [|d ds IH]; intros w l w' l' Hds Hun; simpl in Hun.
  - injection Hun as <- <-. split; [|reflexivity].
    destruct l; simpl in *; subst. apply rtc_refl.
  - destruct (run_deferred d w) as [w1|] eqn:Hd; simpl in Hun; [|discriminate].
    apply IH in Hun as [Hrtc Hnil]; [|reflexivity].
    split; [|exact Hnil].
    eapply rtc_l; [|exact Hrtc].
    unfold moves; simpl. rewrite Hds. simpl. rewrite Hd. reflexivity.
Qed.

Local Ltac one_move IH H :=
  apply IH in H as [? ?]; split; [|done]; eapply rtc_l; [|done].

(** Whatever [exec] computes is reached by taking the goroutine's
    actions one after the other, and ends with no deferred call left. *)
Lemma exec_moves p : forall w l w' l',
  exec order p w l = Some (w', l') ->
  rtc (moves order) (w, l, p) (w', l', Return) /\ defers l' = [].
Proof.
  induction p as [|k IH|k IH|v k IH|s b k IH|err e msg k IH|k IH|k IH|k IH|k IH
                 |d k IH|key k IH|key b k IH|key k IH|k IH];
    intros w l w' l' Hex; simpl in Hex.
  - eapply unwind_moves; eauto.
  - one_move IH Hex. done.
  - one_move IH Hex. done.
  - one_move IH Hex. done.
  - one_move IH Hex. done.
  - one_move IH Hex. done.
  - destruct (with_mu try_Lock w) as [w1|] eqn:Hw; simpl in Hex; [|done].
    one_move IH Hex. unfold moves; simpl. by rewrite Hw.
  - destruct (with_mu try_Unlock w) as [w1|] eqn:Hw; simpl in Hex; [|done].
    one_move IH Hex. unfold moves; simpl. by rewrite Hw.
  - destruct (with_mu try_RLock w) as [w1|] eqn:Hw; simpl in Hex; [|done].
    one_move IH Hex. unfold moves; simpl. by rewrite Hw.
  - destruct (with_mu try_RUnlock w) as [w1|] eqn:Hw; simpl in Hex; [|done].
    one_move IH Hex. unfold moves; simpl. by rewrite Hw.
  - one_move IH Hex. done.
  - destruct (map_get (storage w) key) as [b ok] eqn:Hg.
    one_move IH Hex. unfold moves; simpl. by rewrite Hg.
  - one_move IH Hex. done.
  - one_move IH Hex. done.
  - one_move IH Hex. done.
Qed.

End Agreement.

(** ** Handlers run alone *)

(** Unfolds a handler and runs it as far as the request determines. *)
Ltac run_handler :=
  unfold outcome, history, serve, handler, Gin.router, Mux.router,
    Gin.returnAllBooks, Gin.returnBooksByID, Gin.createBook, Gin.updateBook,
    Gin.deleteBook, Mux.returnAllBooks, Mux.returnBooksByID, Mux.createBook,
    Mux.updateBook, Mux.deleteBook, Gin.NoExist, c_JSON, http_Error, Encode;
  cbn -[lookup insert delete append String.append newline collect marshal_Books].

(** Settles the map lookup of a handler from a hypothesis on the map. *)
Ltac known_lookup Hm :=
  unfold map_get; rewrite Hm;
  cbn -[lookup insert delete append String.append newline collect marshal_Books].

Section Sequential.

Context (order : gmap string Book -> list (string * Book)).

(** Every request is answered: the handler returns, has written exactly
    one response, holds no lock and has no deferred call left. *)
Lemma serve_returns v r m :
  exists w l,
    serve order v r m = Some (w, l)
    /\ mu w = unlocked /\ defers l = [] /\ length (written l) = 1.
Proof.
  destruct v, r as [|id|[err|b]|id [err|b]|id]; run_handler;
    try (unfold map_get; destruct (m !! _));
    cbn -[lookup insert delete append String.append newline collect marshal_Books];
    eauto 10.
Qed.

(** The map a request leaves behind. *)
Lemma serve_storage v r m :
  exists w l,
    serve order v r m = Some (w, l)
    /\ storage w =
         match r with
         | POST_book (BindOk b) =>
             match m !! ID b with Some _ => m | None => <[ID b := b]> m end
         | PUT_book_id id (BindOk b) =>
             match m !! id with Some _ => <[id := b]> m | None => m end
         | DELETE_book_id id =>
             match m !! id with Some _ => delete id m | None => m end
         | _ => m
         end.
Proof.
  destruct v, r as [|id|[err|b]|id [err|b]|id]; run_handler;
    try (unfold map_get; destruct (m !! _));
    cbn -[lookup insert delete append String.append newline collect marshal_Books];
    eauto.
Qed.

(** [marshal_Book] loses nothing: equal encodings come from equal records. *)
Lemma marshal_Book_inj b1 b2 : marshal_Book b1 = marshal_Book b2 -> b1 = b2.
Proof.
  destruct b1, b2; unfold marshal_Book; simpl. intros Heq.
  injection Heq as -> -> ->. reflexivity.
Qed.

(** C3. A Create whose id is already present is refused with the message
    "Record already exists" and leaves the first Record in place; the
    refusal carries status 400 in part_000, but status 404 in main.go. *)
Theorem create_existing_refused m b first :
  m !! ID b = Some first ->
  outcome (serve order MuxMutex (POST_book (BindOk b)) m)
    = Some (m, [error_response MuxMutex 400 "Record already exists"])
  /\ outcome (serve order GinRW (POST_book (BindOk b)) m)
    = Some (m, [error_response GinRW 404 "Record already exists"]).
Proof.
  intros Hm. split; run_handler; known_lookup Hm; reflexivity.
Qed.

(** C5. Update on a present path id stores the payload at that key, also
    when the payload's id differs; the key set is unchanged and the
    payload is echoed. *)
Theorem update_keyed_by_path v m k record old :
  m !! k = Some old ->
  outcome (serve order v (PUT_book_id k (BindOk record)) m)
    = Some (<[k := record]> m, [ok_response v (marshal_Book record)])
  /\ (<[k := record]> m) !! k = Some record
  /\ dom (<[k := record]> m) = dom m.
Proof.
  intros Hm. split; [|split].
  - destruct v; run_handler; known_lookup Hm; reflexivity.
  - apply lookup_insert_eq.
  - apply dom_insert_lookup_L. by exists old.
Qed.

(** C6. On an id that is not in the Store, Get, Update and Delete all
    answer 404 "Record not found"; Delete on a present id succeeds and
    a second Delete of the same id answers not-found. *)
Theorem not_found_consistency v m id record :
  m !! id = None ->
  outcome (serve order v (GET_book_id id) m)
    = Some (m, [error_response v 404 "Record not found"])
  /\ outcome (serve order v (PUT_book_id id (BindOk record)) m)
    = Some (m, [error_response v 404 "Record not found"])
  /\ outcome (serve order v (DELETE_book_id id) m)
    = Some (m, [error_response v 404 "Record not found"])
  /\ forall m1 b, m1 !! id = Some b ->
       outcome (serve order v (DELETE_book_id id) m1)
         = Some (delete id m1,
                 [ok_response v (H "message" "Book deleted successfully")])
       /\ outcome (serve order v (DELETE_book_id id) (delete id m1))
         = Some (delete id m1, [error_response v 404 "Record not found"]).
Proof.
  intros Hm. split; [|split; [|split; [|intros m1 b Hb; split]]].
  - destruct v; run_handler; known_lookup Hm; reflexivity.
  - destruct v; run_handler; known_lookup Hm; reflexivity.
  - destruct v; run_handler; known_lookup Hm; reflexivity.
  - destruct v; run_handler; known_lookup Hb; reflexivity.
  - pose proof (lookup_delete_eq m1 id) as Hd.
    destruct v; run_handler; known_lookup Hd; reflexivity.
Qed.

(** C7. A Create or Update whose body does not decode is answered 400
    "Invalid JSON format" and leaves the Store as it was. *)
Theorem decode_failure_rejected v m id err :
  outcome (serve order v (POST_book (BindErr err)) m)
    = Some (m, [error_response v 400 "Invalid JSON format"])
  /\ outcome (serve order v (PUT_book_id id (BindErr err)) m)
    = Some (m, [error_response v 400 "Invalid JSON format"]).
Proof. destruct v; split; reflexivity. Qed.

(** C9. Create of a Record with a fresh id, then Get of that id: both
    succeed and both carry the Record, field for field. *)
Theorem create_then_get v m r :
  m !! ID r = None ->
  outcome (serve order v (POST_book (BindOk r)) m)
    = Some (<[ID r := r]> m, [ok_response v (marshal_Book r)])
  /\ outcome (serve order v (GET_book_id (ID r)) (<[ID r := r]> m))
    = Some (<[ID r := r]> m, [ok_response v (marshal_Book r)])
  /\ forall b, marshal_Book b = marshal_Book r ->
       ID b = ID r /\ Name b = Name r /\ Author b = Author r.
Proof.
  intros Hm. split; [|split].
  - destruct v; run_handler; known_lookup Hm; reflexivity.
  - pose proof (lookup_insert_eq m (ID r) r) as Hi.
    destruct v; run_handler; known_lookup Hi; reflexivity.
  - intros b Hb. apply marshal_Book_inj in Hb. by subst.
Qed.

(** C10. A Create, Update or Delete working on key [k] leaves the entry
    at every other key as it was. *)
Theorem other_keys_untouched v r m k k' :
  target r = Some k ->
  k' <> k ->
  exists w l,
    serve order v r m = Some (w, l) /\ storage w !! k' = m !! k'.
Proof.
  intros Ht Hne.
  destruct (serve_storage v r m) as (w & l & Hs & Hst).
  exists w, l. split; [exact Hs|]. rewrite Hst.
  destruct r as [|id|[err|b]|id [err|b]|id]; simpl in Ht; simplify_eq; try done.
  - destruct (m !! ID b); [done|]. by rewrite lookup_insert_ne.
  - destruct (m !! k); [|done]. by rewrite lookup_insert_ne.
  - destruct (m !! k); [|done]. by rewrite lookup_delete_ne.
Qed.

(** The loop of [returnAllBooks] leaves [books] nil when the map has no
    entry, and otherwise holds the visited values in visiting order. *)
Lemma collect_spec entries :
  collect entries =
    match entries with
    | [] => nil_slice
    | _ :: _ => Slice (entries.*2)
    end.
Proof.
  assert (Hgen : forall es l,
    fold_left (fun books (e : string * Book) => append books e.2) es (Slice l)
      = Slice (l ++ es.*2)%list).
  { induction es as [|e es IH]; intros l; simpl.
    - by rewrite app_nil_r.
    - rewrite IH. by rewrite <- app_assoc. }
  destruct entries as [|e es]; [reflexivity|].
  unfold collect. simpl. apply Hgen.
Qed.

Section Listing.

Hypothesis order_enumerates : forall m, order m ≡ₚ map_to_list m.

(** C4. List has no error outcome and, on a non-empty Store, answers
    a JSON array holding every current Record exactly once; on the
    empty Store the body it sends is [null], not the array []. *)
Theorem list_all_books v m :
  (m = ∅ ->
     outcome (serve order v GET_book m) = Some (m, [ok_response v JNull]))
  /\ (m <> ∅ ->
       exists books,
         outcome (serve order v GET_book m)
           = Some (m, [ok_response v (JArr (marshal_Book <$> books))])
         /\ books ≡ₚ (map_to_list m).*2).
Proof.
  split.
  - intros ->.
    assert (Hnil : order ∅ = []).
    { apply Permutation_nil_r. rewrite order_enumerates.
      by rewrite map_to_list_empty. }
    destruct v; run_handler; rewrite Hnil; reflexivity.
  - intros Hne. exists ((order m).*2). split.
    + assert (Hcons : collect (order m) = Slice ((order m).*2)).
      { rewrite collect_spec. destruct (order m) as [|e es] eqn:Ho; [|done].
        exfalso. apply Hne. apply map_to_list_empty_iff.
        apply Permutation_nil_r. by rewrite <- order_enumerates, Ho. }
      destruct v; run_handler; rewrite Hcons; reflexivity.
    + by rewrite order_enumerates.
Qed.

End Listing.

End Sequential.

(** ** Uniqueness of ids *)

Section Uniqueness.

Context (order : gmap string Book -> list (string * Book)).

Lemma keyed_by_id_unique m : keyed_by_id m -> ids_unique m.
Proof.
  intros Hk k1 k2 b1 b2 H1 H2 Heq.
  apply Hk in H1. apply Hk in H2. congruence.
Qed.

Lemma keyed_by_id_insert m b : keyed_by_id m -> keyed_by_id (<[ID b := b]> m).
Proof.
  intros Hk k b' Hl. destruct (decide (ID b = k)) as [<-|Hne].
  - rewrite lookup_insert_eq in Hl. by injection Hl as <-.
  - rewrite lookup_insert_ne in Hl by done. by apply Hk.
Qed.

Lemma keyed_by_id_delete m k : keyed_by_id m -> keyed_by_id (delete k m).
Proof.
  intros Hk k' b Hl. apply lookup_delete_Some in Hl as [_ Hl]. by apply Hk.
Qed.

(** One request keeps every Record at the key of its id, provided an
    update does not rename the Record it replaces. *)
Lemma serve_keyed_by_id v r m :
  id_preserving r -> keyed_by_id m ->
  exists w l, serve order v r m = Some (w, l) /\ keyed_by_id (storage w).
Proof.
  intros Hr Hk. destruct (serve_storage order v r m) as (w & l & Hs & Hst).
  exists w, l. split; [exact Hs|]. rewrite Hst. clear Hs Hst.
  destruct r as [|id|[err|b]|id [err|b]|id]; simpl in Hr; try done.
  - destruct (m !! ID b); [done|]. by apply keyed_by_id_insert.
  - destruct (m !! id); [|done]. subst id. by apply keyed_by_id_insert.
  - destruct (m !! id); [|done]. by apply keyed_by_id_delete.
Qed.

Lemma serve_seq_keyed_by_id v rs : forall m,
  Forall id_preserving rs -> keyed_by_id m ->
  exists m', serve_seq order v rs m = Some m' /\ keyed_by_id m'.
Proof.
  induction rs as [|r rs IH]; intros m Hrs Hk; simpl.
  - eauto.
  - apply Forall_cons in Hrs as [Hr Hrs].
    destruct (serve_keyed_by_id v r m Hr Hk) as (w & l & -> & Hk').
    simpl. by apply IH.
Qed.

(** C1, as the code has it. Starting from the empty Store, after any
    sequence of requests in which every Update carries the id of the
    path it is sent to, every live Record sits at the key of its id,
    and so no two live Records share an id. *)
Theorem ids_unique_without_renaming v rs :
  Forall id_preserving rs ->
  exists m,
    serve_seq order v rs ∅ = Some m /\ keyed_by_id m /\ ids_unique m.
Proof.
  intros Hrs.
  destruct (serve_seq_keyed_by_id v rs ∅ Hrs) as (m & Hm & Hk).
  - intros k b Hl. by rewrite lookup_empty in Hl.
  - exists m. auto using keyed_by_id_unique.
Qed.

End Uniqueness.

(** ** Lock discipline *)

(** Runs scheduled goroutines, leaving the operations on the map alone. *)
Ltac run_threads :=
  cbn -[gmap_lookup map_insert map_delete gmap_empty String.append newline].

Section Discipline.

Context (order : gmap string Book -> list (string * Book)).

(** C8, as the code has it. Every handler reads the request body while
    it holds no lock. [returnBooksByID] and [createBook], and
    [updateBook] when the body does not decode, write the response
    holding no lock; [returnAllBooks], [deleteBook] and [updateBook]
    on a decoded body unlock by a deferred call, so the response is
    written while the lock is held. *)
Theorem lock_and_io_order v r m :
  exists tr,
    history (serve order v r m) = Some tr
    /\ body_read_unlocked tr = true
    /\ response_written_unlocked tr =
         match r with
         | GET_book_id _ | POST_book _ | PUT_book_id _ (BindErr _) => true
         | GET_book | PUT_book_id _ (BindOk _) | DELETE_book_id _ => false
         end.
Proof.
  destruct v, r as [|id|[err|b]|id [err|b]|id]; run_handler;
    try (unfold map_get; destruct (m !! _));
    cbn -[lookup insert delete append String.append newline collect marshal_Books];
    eauto.
Qed.

(** X15. [updateBook] and [deleteBook] look the id up and act on it inside
    one acquisition of the exclusive lock. *)
Lemma update_delete_check_act_atomic v id b m :
  (exists tr, history (serve order v (PUT_book_id id (BindOk b)) m) = Some tr
              /\ check_act_atomic tr = true)
  /\ (exists tr, history (serve order v (DELETE_book_id id) m) = Some tr
                 /\ check_act_atomic tr = true).
Proof.
  split; destruct v; run_handler; unfold map_get; destruct (m !! id);
    cbn -[lookup insert delete append String.append newline collect marshal_Books];
    eauto.
Qed.

(** C2. [createBook] looks the id up before it takes the lock. Two
    concurrent Creates of one id can therefore both see it absent: under
    [race_schedule] both insert and both are answered 200, the second
    insertion replaces the first Record, and neither goroutine did its
    check and its insertion within one acquisition of the lock. *)
Theorem create_check_outside_lock v a b :
  ID a = ID b ->
  exists s,
    run_schedule order (race_schedule v)
      (start v ∅ [POST_book (BindOk a); POST_book (BindOk b)]) = Some s
    /\ storage (world s) = {[ID b := b]}
    /\ (fun t => written t.1) <$> threads s
         = [[ok_response v (marshal_Book a)]; [ok_response v (marshal_Book b)]]
    /\ (fun t => check_act_atomic (trace t.1)) <$> threads s = [false; false].
Proof.
  intros Hid.
  assert (Hget : forall k, map_get (∅ : gmap string Book) k = (zeroBook, false)).
  { intros k. unfold map_get. by rewrite lookup_empty. }
  destruct v; unfold race_schedule, start, spawn, run_schedule, sched, handler,
    Gin.router, Mux.router, Gin.createBook, Mux.createBook, c_JSON, Encode;
    run_threads; rewrite Hget; run_threads; rewrite Hget; run_threads;
    (eexists; split; [reflexivity|]); run_threads;
    rewrite Hid, insert_insert_eq, insert_empty; done.
Qed.

End Discipline.

(** ** Uniqueness of ids under every interleaving *)

Section Interleaved.

Context (order : gmap string Book -> list (string * Book)).


Lemma with_mu_storage f w w' : with_mu f w = Some w' -> storage w' = storage w.
Proof.
  unfold with_mu. destruct (f (mu w)); simpl; [|discriminate].
  by intros [= <-].
Qed.

Lemma run_deferred_storage d w w' :
  run_deferred d w = Some w' -> storage w' = storage w.
Proof. destruct d; apply with_mu_storage. Qed.





End Interleaved.

(** ** The theorems at concrete requests *)

(** C1 as stated fails. Two Creates, then an Update sent to "1" whose
    payload carries the id "2": both live Records now have id "2". *)
Lemma update_duplicates_id :
  serve_seq map_to_list GinRW
    [POST_book (BindOk book_1); POST_book (BindOk book_2);
     PUT_book_id "1" (BindOk book_2_sent_to_1)] ∅
    = Some {["1" := book_2_sent_to_1; "2" := book_2]}
  /\ serve_seq map_to_list MuxMutex
    [POST_book (BindOk book_1); POST_book (BindOk book_2);
     PUT_book_id "1" (BindOk book_2_sent_to_1)] ∅
    = Some {["1" := book_2_sent_to_1; "2" := book_2]}
  /\ ~ ids_unique {["1" := book_2_sent_to_1; "2" := book_2]}.
Proof.
  split; [|split].
  - vm_compute. reflexivity.
  - vm_compute. reflexivity.
  - intros Hu.
    specialize (Hu "1" "2" book_2_sent_to_1 book_2 eq_refl eq_refl eq_refl).
    discriminate.
Qed.

Lemma ids_unique_without_renaming_witness :
  Forall id_preserving
    [POST_book (BindOk book_1); PUT_book_id "1" (BindOk book_1_again);
     DELETE_book_id "2"]
  /\ exists m,
       serve_seq map_to_list GinRW
         [POST_book (BindOk book_1); PUT_book_id "1" (BindOk book_1_again);
          DELETE_book_id "2"] ∅ = Some m
       /\ keyed_by_id m /\ ids_unique m.
Proof.
  assert (Hrs : Forall id_preserving
            [POST_book (BindOk book_1); PUT_book_id "1" (BindOk book_1_again);
             DELETE_book_id "2"]).
  { repeat constructor. }
  split; [exact Hrs|].
  exact (ids_unique_without_renaming map_to_list GinRW _ Hrs).
Defined.

Lemma create_check_outside_lock_witness :
  ID book_1 = ID book_1_again
  /\ exists s,
       run_schedule map_to_list (race_schedule GinRW)
         (start GinRW ∅
            [POST_book (BindOk book_1); POST_book (BindOk book_1_again)]) = Some s
       /\ storage (world s) = {[ID book_1_again := book_1_again]}
       /\ (fun t => written t.1) <$> threads s
            = [[ok_response GinRW (marshal_Book book_1)];
               [ok_response GinRW (marshal_Book book_1_again)]]
       /\ (fun t => check_act_atomic (trace t.1)) <$> threads s = [false; false].
Proof.
  split; [reflexivity|].
  apply (create_check_outside_lock map_to_list GinRW book_1 book_1_again).
  reflexivity.
Defined.

Lemma create_existing_refused_witness :
  ({["1" := book_1]} : gmap string Book) !! ID book_1_again = Some book_1
  /\ outcome (serve map_to_list MuxMutex (POST_book (BindOk book_1_again))
               {["1" := book_1]})
       = Some ({["1" := book_1]},
               [error_response MuxMutex 400 "Record already exists"])
  /\ outcome (serve map_to_list GinRW (POST_book (BindOk book_1_again))
               {["1" := book_1]})
       = Some ({["1" := book_1]},
               [error_response GinRW 404 "Record already exists"]).
Proof.
  split; [reflexivity|].
  apply (create_existing_refused map_to_list {["1" := book_1]} book_1_again book_1).
  reflexivity.
Defined.

Lemma list_all_books_witness :
  (forall m : gmap string Book, map_to_list m ≡ₚ map_to_list m)
  /\ outcome (serve map_to_list GinRW GET_book ∅)
       = Some (∅, [ok_response GinRW JNull])
  /\ outcome (serve map_to_list MuxMutex GET_book ∅)
       = Some (∅, [ok_response MuxMutex JNull])
  /\ exists books,
       outcome (serve map_to_list GinRW GET_book {["1" := book_1]})
         = Some ({["1" := book_1]},
                 [ok_response GinRW (JArr (marshal_Book <$> books))])
       /\ books ≡ₚ (map_to_list ({["1" := book_1]} : gmap string Book)).*2.
Proof.
  assert (Hperm : forall m : gmap string Book, map_to_list m ≡ₚ map_to_list m).
  { intros m. reflexivity. }
  split; [exact Hperm|]. split; [|split].
  - apply (list_all_books map_to_list Hperm GinRW ∅). reflexivity.
  - apply (list_all_books map_to_list Hperm MuxMutex ∅). reflexivity.
  - apply (list_all_books map_to_list Hperm GinRW {["1" := book_1]}).
    intros Hempty.
    assert (Hl : ({["1" := book_1]} : gmap string Book) !! "1" = Some book_1)
      by reflexivity.
    rewrite Hempty in Hl. discriminate.
Defined.

Lemma update_keyed_by_path_witness :
  ({["1" := book_1]} : gmap string Book) !! "1" = Some book_1
  /\ outcome (serve map_to_list GinRW (PUT_book_id "1" (BindOk book_2_sent_to_1))
               {["1" := book_1]})
       = Some (<["1" := book_2_sent_to_1]> {["1" := book_1]},
               [ok_response GinRW (marshal_Book book_2_sent_to_1)])
  /\ (<["1" := book_2_sent_to_1]> ({["1" := book_1]} : gmap string Book)) !! "1"
       = Some book_2_sent_to_1
  /\ dom (<["1" := book_2_sent_to_1]> ({["1" := book_1]} : gmap string Book))
       = dom ({["1" := book_1]} : gmap string Book).
Proof.
  split; [reflexivity|].
  apply (update_keyed_by_path map_to_list GinRW {["1" := book_1]} "1"
           book_2_sent_to_1 book_1).
  reflexivity.
Defined.

Lemma not_found_consistency_witness :
  (∅ : gmap string Book) !! "1" = None
  /\ outcome (serve map_to_list GinRW (GET_book_id "1") ∅)
       = Some (∅, [error_response GinRW 404 "Record not found"])
  /\ outcome (serve map_to_list GinRW (PUT_book_id "1" (BindOk book_1)) ∅)
       = Some (∅, [error_response GinRW 404 "Record not found"])
  /\ outcome (serve map_to_list GinRW (DELETE_book_id "1") ∅)
       = Some (∅, [error_response GinRW 404 "Record not found"])
  /\ forall m1 b, m1 !! "1" = Some b ->
       outcome (serve map_to_list GinRW (DELETE_book_id "1") m1)
         = Some (delete "1" m1,
                 [ok_response GinRW (H "message" "Book deleted successfully")])
       /\ outcome (serve map_to_list GinRW (DELETE_book_id "1") (delete "1" m1))
         = Some (delete "1" m1, [error_response GinRW 404 "Record not found"]).
Proof.
  split; [reflexivity|].
  apply (not_found_consistency map_to_list GinRW ∅ "1" book_1).
  reflexivity.
Defined.

Lemma create_then_get_witness :
  (∅ : gmap string Book) !! ID book_1 = None
  /\ outcome (serve map_to_list GinRW (POST_book (BindOk book_1)) ∅)
       = Some (<[ID book_1 := book_1]> ∅, [ok_response GinRW (marshal_Book book_1)])
  /\ outcome (serve map_to_list GinRW (GET_book_id (ID book_1))
               (<[ID book_1 := book_1]> ∅))
       = Some (<[ID book_1 := book_1]> ∅, [ok_response GinRW (marshal_Book book_1)])
  /\ forall b, marshal_Book b = marshal_Book book_1 ->
       ID b = ID book_1 /\ Name b = Name book_1 /\ Author b = Author book_1.
Proof.
  split; [reflexivity|].
  apply (create_then_get map_to_list GinRW ∅ book_1).
  reflexivity.
Defined.

Lemma other_keys_untouched_witness :
  target (DELETE_book_id "1") = Some "1"
  /\ "2" <> "1"
  /\ exists w l,
       serve map_to_list MuxMutex (DELETE_book_id "1")
         {["1" := book_1; "2" := book_2]} = Some (w, l)
       /\ storage w !! "2"
          = ({["1" := book_1; "2" := book_2]} : gmap string Book) !! "2".
Proof.
  assert (Hne : "2" <> "1") by discriminate.
  split; [reflexivity|]. split; [exact Hne|].
  apply (other_keys_untouched map_to_list MuxMutex (DELETE_book_id "1")
           {["1" := book_1; "2" := book_2]} "1" "2"); [reflexivity|exact Hne].
Defined.

(** C8 as stated fails. [updateBook] on a present id writes its response
    between taking the lock and the deferred unlock. *)
Lemma update_responds_under_lock :
  history (serve map_to_list GinRW (PUT_book_id "1" (BindOk book_1_again))
             {["1" := book_1]})
    = Some [EvReadBody; EvLock; EvMapGet "1"; EvMapSet "1"; EvWriteResp; EvUnlock]
  /\ history (serve map_to_list MuxMutex (PUT_book_id "1" (BindOk book_1_again))
             {["1" := book_1]})
    = Some [EvReadBody; EvLock; EvMapGet "1"; EvMapSet "1"; EvWriteResp; EvUnlock]
  /\ no_io_under_lock
       [EvReadBody; EvLock; EvMapGet "1"; EvMapSet "1"; EvWriteResp; EvUnlock]
     = false.
Proof. repeat split; reflexivity. Qed.

(** ** Further properties of the handlers run alone *)

Ltac run_cases m :=
  run_handler;
  try (unfold map_get; destruct (m !! _) eqn:?);
  cbn -[lookup insert delete append String.append newline collect marshal_Books].

Section Handlers.

Context (order : gmap string Book -> list (string * Book)).


(** X2. A request that is not answered 200 leaves the map as it was, and
    so does every GET; the status is always one of 200, 400 and 404. *)
Theorem refused_request_changes_nothing v r m :
  exists w l resp,
    serve order v r m = Some (w, l)
    /\ written l = [resp]
    /\ (code resp = 200 \/ code resp = 400 \/ code resp = 404)
    /\ (code resp <> 200 -> storage w = m)
    /\ (req_method r = "GET" -> storage w = m).
Proof.
  destruct v, r as [|id|[err|b]|id [err|b]|id]; run_cases m;
    do 3 eexists; (split; [reflexivity|]); (split; [reflexivity|]);
    cbn; repeat split; auto; try done.
Qed.

(** X3. main.go answers every request, success or failure, as
    application/json; part_000 sets application/json first but its
    failures go out as text/plain, with a plain-text body. *)
Theorem response_content_type v r m :
  exists w l resp,
    serve order v r m = Some (w, l)
    /\ written l = [resp]
    /\ content_type resp =
         match v with
         | GinRW => "application/json; charset=utf-8"
         | MuxMutex =>
             if Nat.eqb (code resp) 200 then "application/json"
             else "text/plain; charset=utf-8"
         end
    /\ (match payload resp with BJSON _ => true | BText _ => false end
        = match v with GinRW => true | MuxMutex => Nat.eqb (code resp) 200 end).
Proof.
  destruct v, r as [|id|[err|b]|id [err|b]|id]; run_cases m;
    do 3 eexists; (split; [reflexivity|]); (split; [reflexivity|]);
    cbn; split; reflexivity.
Qed.

(** X4. Get answers 200 with the Record stored at the path key, whatever
    the id field of that Record, and leaves the map as it was. *)
Theorem get_returns_stored v m id b :
  m !! id = Some b ->
  outcome (serve order v (GET_book_id id) m)
    = Some (m, [ok_response v (marshal_Book b)]).
Proof.
  intros Hm. destruct v; run_handler; known_lookup Hm; reflexivity.
Qed.

(** X5. After an Update under key [k] with a payload of another id, Get of
    [k] returns the payload, while Get of the payload's own id answers
    not-found unless that id was a key before. *)
Theorem renamed_record_found_at_path_key v m k record old :
  m !! k = Some old ->
  m !! ID record = None ->
  outcome (serve order v (PUT_book_id k (BindOk record)) m)
    = Some (<[k := record]> m, [ok_response v (marshal_Book record)])
  /\ outcome (serve order v (GET_book_id k) (<[k := record]> m))
    = Some (<[k := record]> m, [ok_response v (marshal_Book record)])
  /\ outcome (serve order v (GET_book_id (ID record)) (<[k := record]> m))
    = Some (<[k := record]> m, [error_response v 404 "Record not found"]).
Proof.
  intros Hk Hid.
  assert (Hne : k <> ID record) by congruence.
  pose proof (lookup_insert_eq m k record) as H1.
  assert (H2 : <[k := record]> m !! ID record = None)
    by (by rewrite lookup_insert_ne).
  split; [|split].
  - destruct v; run_handler; known_lookup Hk; reflexivity.
  - destruct v; run_handler; known_lookup H1; reflexivity.
  - destruct v; run_handler; known_lookup H2; reflexivity.
Qed.

(** X6. A deleted id is free again: after Delete of a present id, Get of
    it answers not-found and a Create with that id succeeds and stores
    the new Record. *)
Theorem deleted_id_is_free v m b old :
  m !! ID b = Some old ->
  outcome (serve order v (DELETE_book_id (ID b)) m)
    = Some (delete (ID b) m,
            [ok_response v (H "message" "Book deleted successfully")])
  /\ outcome (serve order v (GET_book_id (ID b)) (delete (ID b) m))
    = Some (delete (ID b) m, [error_response v 404 "Record not found"])
  /\ outcome (serve order v (POST_book (BindOk b)) (delete (ID b) m))
    = Some (<[ID b := b]> m, [ok_response v (marshal_Book b)]).
Proof.
  intros Hm. pose proof (lookup_delete_eq m (ID b)) as Hd.
  split; [|split].
  - destruct v; run_handler; known_lookup Hm; reflexivity.
  - destruct v; run_handler; known_lookup Hd; reflexivity.
  - destruct v; run_handler; known_lookup Hd; rewrite insert_delete_eq; reflexivity.
Qed.

(** X7. The number of Records: a Create of a fresh id adds one, a Delete
    of a present id removes one, and nothing else changes it. *)
Theorem store_size_accounting v r m :
  exists w l,
    serve order v r m = Some (w, l)
    /\ size (storage w) =
         match r with
         | POST_book (BindOk b) =>
             match m !! ID b with Some _ => size m | None => S (size m) end
         | DELETE_book_id id =>
             match m !! id with Some _ => pred (size m) | None => size m end
         | _ => size m
         end.
Proof.
  destruct (serve_storage order v r m) as (w & l & Hs & Hst).
  exists w, l. split; [exact Hs|]. rewrite Hst. clear Hs Hst.
  destruct r as [|id|[err|b]|id [err|b]|id]; try done.
  - destruct (m !! ID b) eqn:Hb; [done|]. by apply map_size_insert_None.
  - destruct (m !! id) eqn:Hi; [|done]. by apply map_size_insert_Some.
  - destruct (m !! id) eqn:Hi; [|done]. by apply map_size_delete_Some.
Qed.

(** X8. Reads of the map by Get and List happen with the lock held: the
    shared lock in main.go, the (exclusive) mutex in part_000. *)
Theorem reads_hold_lock v r m :
  req_method r = "GET" ->
  exists tr,
    history (serve order v r m) = Some tr
    /\ map_access_under (read_mode v) tr = true
    /\ Exists (fun e => is_map_access e = true) tr.
Proof.
  intros Hr.
  destruct v, r as [|id|[err|b]|id [err|b]|id]; try discriminate; run_cases m;
    eexists; (split; [reflexivity|]); (split; [reflexivity|]);
    repeat (first [by apply Exists_cons_hd | apply Exists_cons_tl]).
Qed.

End Handlers.

(** ** The mutex under every interleaving *)

Section Mutex.

Context (order : gmap string Book -> list (string * Book)).

(** Every handler respects the mutex, whatever the request carries. *)
Lemma handler_disciplined v r : disciplined Free [] (handler v r).
Proof.
  destruct v, r; simpl;
    repeat (intros [] || intros ? || split || reflexivity).
Qed.

Lemma final_hold_emit tr e : final_hold (tr ++ [e]) = hold_after (final_hold tr) e.
Proof. unfold final_hold. by rewrite fold_left_app. Qed.

Lemma hold_eqb_eq a b : hold_eqb a b = true <-> a = b.
Proof. destruct a, b; simpl; split; congruence. Qed.

Lemma holders_cons h t ts :
  holders h (t :: ts) = (if hold_eqb (holding t) h then 1 else 0) + holders h ts.
Proof.
  unfold holders. rewrite filter_cons.
  destruct (decide (hold_eqb (holding t) h = true)) as [->|Hn]; [done|].
  by apply not_true_is_false in Hn as ->.
Qed.

(** Replacing one goroutine moves the count by that goroutine alone. *)
Lemma holders_insert h ts : forall i t t',
  ts !! i = Some t ->
  holders h (<[i := t']> ts) + (if hold_eqb (holding t) h then 1 else 0)
    = holders h ts + (if hold_eqb (holding t') h then 1 else 0).
Proof.
  induction ts as [|t0 ts IH]; intros i t t' Hi; [done|].
  destruct i as [|i]; simpl in *.
  - injection Hi as ->. rewrite !holders_cons. lia.
  - rewrite !holders_cons. specialize (IH i t t' Hi). lia.
Qed.

Lemma holders_zero h ts t :
  holders h ts = 0 -> t ∈ ts -> holding t <> h.
Proof.
  induction ts as [|t0 ts IH]; intros Hz Hin; [by apply elem_of_nil in Hin|].
  rewrite holders_cons in Hz.
  apply elem_of_cons in Hin as [->|Hin].
  - intros Heq. apply hold_eqb_eq in Heq. rewrite Heq in Hz. lia.
  - apply IH; [lia|done].
Qed.


Lemma holders_mem h ts t : t ∈ ts -> holding t = h -> 0 < holders h ts.
Proof.
  intros Hin Ht. destruct (holders h ts) eqn:Hz; [|lia].
  by destruct (holders_zero h ts t Hz Hin).
Qed.

(** With a single holder, every other goroutine holds something else. *)
Lemma holders_one h ts : forall i j t t',
  holders h ts = 1 -> ts !! i = Some t -> holding t = h ->
  ts !! j = Some t' -> j <> i -> holding t' <> h.
Proof.
  induction ts as [|t0 ts IH]; intros i j t t' H1 Hi Ht Hj Hne Ht'; [done|].
  rewrite holders_cons in H1.
  destruct i as [|i], j as [|j]; simpl in *; try done.
  - injection Hi as ->. apply hold_eqb_eq in Ht. rewrite Ht in H1.
    apply list_elem_of_lookup_2 in Hj.
    pose proof (holders_mem h ts t' Hj Ht'). lia.
  - injection Hj as ->. apply hold_eqb_eq in Ht'. rewrite Ht' in H1.
    apply list_elem_of_lookup_2 in Hi.
    pose proof (holders_mem h ts t Hi Ht). lia.
  - apply (IH i j t t'); try done; [|congruence].
    pose proof (holders_mem h ts t (list_elem_of_lookup_2 _ _ _ Hi) Ht).
    destruct (hold_eqb (holding t0) h); lia.
Qed.

Lemma with_mu_Some f w w' :
  with_mu f w = Some w' -> exists m', f (mu w) = Some m' /\ w' = set_mu m' w.
Proof.
  unfold with_mu. destruct (f (mu w)) as [m'|]; simpl; [|discriminate].
  intros [= <-]. eauto.
Qed.

(** The ways one action can move the mutex and the lock its goroutine
    holds: not at all, or by one acquisition or release that the mutex
    allowed. *)
Lemma step_disciplined w l p w' l' p' :
  step order w l p = Some (w', l', p') ->
  disciplined (final_hold (trace l)) (defers l) p ->
  disciplined (final_hold (trace l')) (defers l') p'
  /\ ((mu w' = mu w /\ final_hold (trace l') = final_hold (trace l))
      \/ (final_hold (trace l) = Free /\ final_hold (trace l') = Exclusive
          /\ w_locked (mu w) = false /\ readers (mu w) = 0
          /\ w_locked (mu w') = true /\ readers (mu w') = 0)
      \/ (final_hold (trace l) = Exclusive /\ final_hold (trace l') = Free
          /\ w_locked (mu w) = true
          /\ w_locked (mu w') = false /\ readers (mu w') = readers (mu w))
      \/ (final_hold (trace l) = Free /\ final_hold (trace l') = Shared
          /\ w_locked (mu w) = false
          /\ w_locked (mu w') = false /\ readers (mu w') = S (readers (mu w)))
      \/ (final_hold (trace l) = Shared /\ final_hold (trace l') = Free
          /\ readers (mu w) = S (readers (mu w'))
          /\ w_locked (mu w') = w_locked (mu w))).
Proof.
  intros Hstep Hd.
  destruct p; simpl in Hstep, Hd.
  - (* return: the next deferred call *)
    destruct (defers l) as [|d ds] eqn:Hds; [discriminate|].
    destruct (run_deferred d w) as [w1|] eqn:Hw; simpl in Hstep; [|discriminate].
    injection Hstep as <- <- <-. simpl. rewrite final_hold_emit.
    destruct (final_hold (trace l)) eqn:Hh, d, ds; try done; simpl in Hw;
      apply with_mu_Some in Hw as (m' & Hm & ->); simpl.
    + unfold try_RUnlock in Hm. destruct (readers (mu w)) eqn:Hr; [discriminate|].
      injection Hm as <-. split; [done|]. do 4 right. done.
    + unfold try_Unlock in Hm. destruct (w_locked (mu w)) eqn:Hr; [|discriminate].
      injection Hm as <-. split; [done|]. do 2 right. left. done.
  - injection Hstep as <- <- <-. split; [apply Hd|]. by left.
  - injection Hstep as <- <- <-. simpl. rewrite final_hold_emit. simpl.
    split; [apply Hd|]. by left.
  - injection Hstep as <- <- <-. split; [apply Hd|]. by left.
  - injection Hstep as <- <- <-. simpl. rewrite final_hold_emit. simpl.
    split; [apply Hd|]. by left.
  - injection Hstep as <- <- <-. split; [apply Hd|]. by left.
  - destruct (with_mu try_Lock w) as [w1|] eqn:Hw; simpl in Hstep; [|discriminate].
    injection Hstep as <- <- <-. simpl. rewrite final_hold_emit.
    apply with_mu_Some in Hw as (m' & Hm & ->). destruct Hd as [Hh Hd].
    rewrite Hh. simpl. split; [done|]. right; left.
    unfold try_Lock in Hm.
    destruct (w_locked (mu w)), (Nat.eqb_spec (readers (mu w)) 0);
      simpl in Hm; simplify_eq. done.
  - destruct (with_mu try_Unlock w) as [w1|] eqn:Hw; simpl in Hstep; [|discriminate].
    injection Hstep as <- <- <-. simpl. rewrite final_hold_emit.
    apply with_mu_Some in Hw as (m' & Hm & ->). destruct Hd as (Hh & Hds & Hd).
    rewrite Hh. simpl. split; [done|]. do 2 right; left.
    unfold try_Unlock in Hm. destruct (w_locked (mu w)); simplify_eq. done.
  - destruct (with_mu try_RLock w) as [w1|] eqn:Hw; simpl in Hstep; [|discriminate].
    injection Hstep as <- <- <-. simpl. rewrite final_hold_emit.
    apply with_mu_Some in Hw as (m' & Hm & ->). destruct Hd as [Hh Hd].
    rewrite Hh. simpl. split; [done|]. do 3 right; left.
    unfold try_RLock in Hm. destruct (w_locked (mu w)); simpl in Hm; simplify_eq.
    done.
  - destruct (with_mu try_RUnlock w) as [w1|] eqn:Hw; simpl in Hstep; [|discriminate].
    injection Hstep as <- <- <-. simpl. rewrite final_hold_emit.
    apply with_mu_Some in Hw as (m' & Hm & ->). destruct Hd as (Hh & Hds & Hd).
    rewrite Hh. simpl. split; [done|]. do 4 right.
    unfold try_RUnlock in Hm. destruct (readers (mu w)); simplify_eq. done.
  - injection Hstep as <- <- <-. split; [apply Hd|]. by left.
  - destruct (map_get (storage w) key) as [b ok].
    injection Hstep as <- <- <-. simpl. rewrite final_hold_emit. simpl.
    split; [apply Hd|]. by left.
  - injection Hstep as <- <- <-. simpl. rewrite final_hold_emit. simpl.
    split; [apply Hd|]. by left.
  - injection Hstep as <- <- <-. simpl. rewrite final_hold_emit. simpl.
    split; [apply Hd|]. by left.
  - injection Hstep as <- <- <-. simpl. rewrite final_hold_emit. simpl.
    split; [apply Hd|]. by left.
Qed.

Lemma sched_lock_consistent i s s' :
  sched order i s = Some s' -> lock_consistent s -> lock_consistent s'.
Proof.
  unfold sched. intros Hs (Hts & Hex & Hsh & Hwr).
  destruct (threads s !! i) as [[l p]|] eqn:Hi; simpl in Hs; [|discriminate].
  destruct (step order (world s) l p) as [[[w' l'] p']|] eqn:Hst;
    simpl in Hs; [|discriminate].
  injection Hs as <-.
  pose proof (proj1 (Forall_lookup _ _) Hts i (l, p) Hi) as Hp.
  unfold holding in Hp. simpl in Hp.
  destruct (step_disciplined _ _ _ _ _ _ Hst Hp) as [Hp' Hmove].
  pose proof (holders_insert Exclusive _ i (l, p) (l', p') Hi) as HE.
  pose proof (holders_insert Shared _ i (l, p) (l', p') Hi) as HS.
  unfold holding in HE, HS. simpl in HE, HS.
  unfold lock_consistent. simpl.
  split; [by apply Forall_insert|].
  destruct Hmove as [(Hmu & Hh)|[(Hh & Hh' & Hw & Hr & Hw' & Hr')
    |[(Hh & Hh' & Hw & Hw' & Hr')|[(Hh & Hh' & Hw & Hw' & Hr')
    |(Hh & Hh' & Hr & Hw')]]]].
  - rewrite Hh in HE, HS. rewrite Hmu. repeat split; [lia|lia|done].
  - rewrite Hh, Hh' in HE, HS. simpl in HE, HS.
    rewrite Hw in Hex. rewrite Hw', Hr'. repeat split; lia.
  - rewrite Hh, Hh' in HE, HS. simpl in HE, HS.
    rewrite Hw in Hex. rewrite Hw', Hr'. repeat split; [lia|lia|done].
  - rewrite Hh, Hh' in HE, HS. simpl in HE, HS.
    rewrite Hw in Hex. rewrite Hw', Hr'. repeat split; [lia|lia|done].
  - rewrite Hh, Hh' in HE, HS. simpl in HE, HS.
    rewrite Hw'. repeat split; [lia|lia|].
    intros Hl. specialize (Hwr Hl). lia.
Qed.

Lemma start_lock_consistent v m rs : lock_consistent (start v m rs).
Proof.
  unfold lock_consistent, start. simpl. split; [|split; [|split]]; try done.
  - apply Forall_fmap, Forall_true. intros r. apply handler_disciplined.
  - induction rs as [|r rs IH]; [done|].
    rewrite fmap_cons, holders_cons. by rewrite IH.
  - induction rs as [|r rs IH]; [done|].
    rewrite fmap_cons, holders_cons. by rewrite IH.
Qed.

Lemma run_schedule_lock_consistent sch : forall s s',
  run_schedule order sch s = Some s' -> lock_consistent s -> lock_consistent s'.
Proof.
  induction sch as [|i sch IH]; intros s s' Hrun Hs; simpl in Hrun.
  - by injection Hrun as <-.
  - destruct (sched order i s) as [s1|] eqn:H1; simpl in Hrun; [|discriminate].
    eapply IH; [exact Hrun|]. eapply sched_lock_consistent; eauto.
Qed.





(** *** Responses *)






(** *** Bounded work *)












(** The holder of the exclusive lock is the only holder of the mutex. *)
Lemma exclusive_alone s i j t t' :
  lock_consistent s ->
  threads s !! i = Some t -> holding t = Exclusive ->
  j <> i -> threads s !! j = Some t' -> holding t' = Free.
Proof.
  intros (Hts & Hex & Hsh & Hwr) Hi Hh Hne Hj.
  pose proof (holders_mem Exclusive _ t (list_elem_of_lookup_2 _ _ _ Hi) Hh) as Hpos.
  destruct (w_locked (mu (world s))) eqn:Hl; [|lia].
  specialize (Hwr eq_refl).
  pose proof (holders_one Exclusive _ i j t t' Hex Hi Hh Hj Hne) as HnE.
  assert (HnS : holding t' <> Shared).
  { apply (holders_zero Shared (threads s)); [lia|].
    by eapply list_elem_of_lookup_2. }
  by destruct (holding t').
Qed.

(** X11. A goroutine about to assign to the map or to delete from it
    holds the exclusive lock, and no other goroutine holds the lock in
    any mode at that moment. *)
Theorem writers_exclude_others v m rs sch s i t :
  run_schedule order sch (start v m rs) = Some s ->
  threads s !! i = Some t -> about_to_write t ->
  holding t = Exclusive
  /\ forall j t', j <> i -> threads s !! j = Some t' -> holding t' = Free.
Proof.
  intros Hrun Hi Hw.
  assert (Hs : lock_consistent s).
  { eapply run_schedule_lock_consistent; [exact Hrun|apply start_lock_consistent]. }
  assert (Hh : holding t = Exclusive).
  { destruct Hs as (Hts & _).
    pose proof (proj1 (Forall_lookup _ _) Hts i t Hi) as Hd.
    destruct t as [l p]. unfold about_to_write in Hw. simpl in *.
    destruct p; try done; apply Hd. }
  split; [exact Hh|]. intros j t' Hne Hj.
  by eapply (exclusive_alone s i j t t').
Qed.




(** An action changes the map only if it is an assignment or a delete. *)
Lemma step_changes_storage w l p w' l' p' :
  step order w l p = Some (w', l', p') ->
  storage w' = storage w \/ about_to_write (l, p).
Proof.
  intros Hstep. unfold about_to_write.
  destruct p; simpl in Hstep |- *; try (by right); left;
    try (destruct (defers l) as [|d ds]; [discriminate|]);
    try (destruct (map_get (storage w) key) as [b0 ok]);
    try (match type of Hstep with
         | (?o ≫= _) = _ =>
             destruct o eqn:Hw; simpl in Hstep; [|discriminate];
             first [apply with_mu_storage in Hw | apply run_deferred_storage in Hw]
         end);
    by injection Hstep as <- <- <-.
Qed.

(** X14. While a goroutine holds the lock, in either mode, no action of
    another goroutine changes the map: what it read under the lock stays
    true until it releases. *)
Theorem lock_isolates_map v m rs sch s i t j s' :
  run_schedule order sch (start v m rs) = Some s ->
  threads s !! i = Some t -> holding t <> Free ->
  j <> i -> sched order j s = Some s' ->
  storage (world s') = storage (world s).
Proof.
  intros Hrun Hi Hh Hne Hj.
  assert (Hs : lock_consistent s).
  { eapply run_schedule_lock_consistent; [exact Hrun|apply start_lock_consistent]. }
  unfold sched in Hj.
  destruct (threads s !! j) as [[l p]|] eqn:Htj; simpl in Hj; [|discriminate].
  destruct (step order (world s) l p) as [[[w' l'] p']|] eqn:Hst;
    simpl in Hj; [|discriminate].
  injection Hj as <-. simpl.
  destruct (step_changes_storage _ _ _ _ _ _ Hst) as [Heq|Hw]; [done|].
  exfalso. apply Hh.
  apply (exclusive_alone s j i (l, p) t Hs Htj); [|done|done].
  destruct Hs as (Hts & _).
  pose proof (proj1 (Forall_lookup _ _) Hts j _ Htj) as Hd.
  unfold about_to_write in Hw. simpl in *.
  destruct p; try done; apply Hd.
Qed.

End Mutex.

(** ** The further properties at concrete requests *)

Lemma get_returns_stored_witness :
  ({["1" := book_2_sent_to_1]} : gmap string Book) !! "1" = Some book_2_sent_to_1
  /\ outcome (serve map_to_list MuxMutex (GET_book_id "1")
               {["1" := book_2_sent_to_1]})
       = Some ({["1" := book_2_sent_to_1]},
               [ok_response MuxMutex (marshal_Book book_2_sent_to_1)]).
Proof.
  split; [reflexivity|].
  apply (get_returns_stored map_to_list MuxMutex _ "1" book_2_sent_to_1).
  reflexivity.
Defined.

Lemma renamed_record_found_at_path_key_witness :
  ({["1" := book_1]} : gmap string Book) !! "1" = Some book_1
  /\ ({["1" := book_1]} : gmap string Book) !! ID book_2_sent_to_1 = None
  /\ outcome (serve map_to_list GinRW (PUT_book_id "1" (BindOk book_2_sent_to_1))
               {["1" := book_1]})
       = Some (<["1" := book_2_sent_to_1]> {["1" := book_1]},
               [ok_response GinRW (marshal_Book book_2_sent_to_1)])
  /\ outcome (serve map_to_list GinRW (GET_book_id "1")
               (<["1" := book_2_sent_to_1]> {["1" := book_1]}))
       = Some (<["1" := book_2_sent_to_1]> {["1" := book_1]},
               [ok_response GinRW (marshal_Book book_2_sent_to_1)])
  /\ outcome (serve map_to_list GinRW (GET_book_id (ID book_2_sent_to_1))
               (<["1" := book_2_sent_to_1]> {["1" := book_1]}))
       = Some (<["1" := book_2_sent_to_1]> {["1" := book_1]},
               [error_response GinRW 404 "Record not found"]).
Proof.
  split; [reflexivity|]. split; [reflexivity|].
  apply (renamed_record_found_at_path_key map_to_list GinRW
           {["1" := book_1]} "1" book_2_sent_to_1 book_1); reflexivity.
Defined.

Lemma deleted_id_is_free_witness :
  ({["1" := book_1]} : gmap string Book) !! ID book_1_again = Some book_1
  /\ outcome (serve map_to_list MuxMutex (DELETE_book_id (ID book_1_again))
               {["1" := book_1]})
       = Some (delete (ID book_1_again) {["1" := book_1]},
               [ok_response MuxMutex (H "message" "Book deleted successfully")])
  /\ outcome (serve map_to_list MuxMutex (GET_book_id (ID book_1_again))
               (delete (ID book_1_again) {["1" := book_1]}))
       = Some (delete (ID book_1_again) {["1" := book_1]},
               [error_response MuxMutex 404 "Record not found"])
  /\ outcome (serve map_to_list MuxMutex (POST_book (BindOk book_1_again))
               (delete (ID book_1_again) {["1" := book_1]}))
       = Some (<[ID book_1_again := book_1_again]> {["1" := book_1]},
               [ok_response MuxMutex (marshal_Book book_1_again)]).
Proof.
  split; [reflexivity|].
  apply (deleted_id_is_free map_to_list MuxMutex {["1" := book_1]}
           book_1_again book_1).
  reflexivity.
Defined.

Lemma reads_hold_lock_witness :
  req_method GET_book = "GET"
  /\ exists tr,
       history (serve map_to_list GinRW GET_book {["1" := book_1]}) = Some tr
       /\ map_access_under (read_mode GinRW) tr = true
       /\ Exists (fun e => is_map_access e = true) tr.
Proof.
  split; [reflexivity|].
  apply (reads_hold_lock map_to_list GinRW GET_book {["1" := book_1]}).
  reflexivity.
Defined.




Lemma writers_exclude_others_witness :
  exists s t,
    run_schedule map_to_list [0; 0; 0; 0; 0; 1]
      (start MuxMutex {["1" := book_1]} [DELETE_book_id "1"; GET_book_id "1"])
      = Some s
    /\ threads s !! 0 = Some t
    /\ about_to_write t
    /\ holding t = Exclusive
    /\ forall j t', j <> 0 -> threads s !! j = Some t' -> holding t' = Free.
Proof.
  do 2 eexists.
  split; [vm_compute; reflexivity|].
  split; [reflexivity|].
  split; [exact I|].
  eapply (writers_exclude_others map_to_list MuxMutex {["1" := book_1]}
            [DELETE_book_id "1"; GET_book_id "1"] [0; 0; 0; 0; 0; 1] _ 0);
    [vm_compute; reflexivity|reflexivity|exact I].
Defined.



Lemma lock_isolates_map_witness :
  exists s t s',
    run_schedule map_to_list [0; 0; 0]
      (start MuxMutex {["1" := book_1]}
         [DELETE_book_id "1"; POST_book (BindOk book_2)]) = Some s
    /\ threads s !! 0 = Some t
    /\ holding t <> Free
    /\ 1 <> 0
    /\ sched map_to_list 1 s = Some s'
    /\ storage (world s') = storage (world s).
Proof.
  do 3 eexists.
  split; [vm_compute; reflexivity|].
  split; [reflexivity|].
  assert (Hh : Exclusive <> Free) by discriminate.
  split; [exact Hh|].
  assert (Hne : 1 <> 0) by discriminate.
  split; [exact Hne|].
  split; [vm_compute; reflexivity|].
  eapply (lock_isolates_map map_to_list MuxMutex {["1" := book_1]}
            [DELETE_book_id "1"; POST_book (BindOk book_2)] [0; 0; 0] _ 0 _ 1);
    [vm_compute; reflexivity|reflexivity|exact Hh|exact Hne|vm_compute; reflexivity].
Defined.
